(** * The operator console of the trusted applet (package [cmd], console.go)

    A shallow embedding of the command registry, the dispatcher [Handle],
    the [Console] read loop, [Help], [confirm] and [msg], followed by the
    properties the console's specification states about them.

    What the Go file imports is kept abstract or modelled by its contract:
    - [regexp]: a compiled pattern is the function [FindStringSubmatch];
    - [golang.org/x/term]: a terminal is a record holding the escape codes,
      the current prompt, the trace of what was shown and the lines still
      to be read;
    - [text/tabwriter]: the column aligner is a parameter of [Help];
    - [fmt.Sprintf]: the formatter is a parameter of [msg];
    - [klog]: the log is a list of entries.
    A handler is a function on the terminal it is given; the registry is
    filled by [Add] before the console runs and is not changed by handlers.
    A Go map is ranged over in an unspecified order, so every function that
    ranges over the registry takes the order of that traversal as an
    argument; [range_values] and [range_keys] say which orders are possible. *)

From stdpp Require Import base strings list gmap sorting.
From Stdlib Require Import ZArith.

Local Open Scope Z_scope.
Set Warnings "-clear-no-such-hyp".

(** ** Errors *)

(** Go's [error] values, as far as this package tells them apart: the
    sentinel [io.EOF], compared by identity, and errors carrying a message
    ([errors.New]). *)
Inductive error : Type :=
| io_EOF
| errorString (s : string).

Definition errors_New (text : string) : error := errorString text.

(** [err.Error()] *)
Definition Error (e : error) : string :=
  match e with
  | io_EOF => "EOF"
  | errorString s => s
  end.

#[global] Instance error_eq_dec : EqDecision error.
Proof. solve_decision. Defined.

Definition maxBufferSize : Z := 102400.

(** ** Characters and strings *)

Definition tab : string := String (Ascii.ascii_of_nat 9) "".
Definition newline : string := String (Ascii.ascii_of_nat 10) "".
Definition esc : string := String (Ascii.ascii_of_nat 27) "".

(** [len(s)] is an [int]; no string here comes near its bound. *)
Definition len (s : string) : Z := Z.of_nat (String.length s).

Fixpoint repeat_string (s : string) (n : nat) : string :=
  match n with
  | O => ""
  | S n' => s +:+ repeat_string s n'
  end.

(** [strings.Repeat(s, count)]: panics ([None]) on a negative count. *)
Definition strings_Repeat (s : string) (count : Z) : option string :=
  if bool_decide (count < 0) then None
  else Some (repeat_string s (Z.to_nat count)).

(** ** Regular expressions *)

(** [*regexp.Regexp], seen through the one method the console calls.
    [FindStringSubmatch] returns [nil] (here [[]]) when the pattern does not
    match, and otherwise the full match followed by one entry per group. *)
Record Regexp : Type := { FindStringSubmatch : string → list string }.

(** ** Terminals *)

(** [term.EscapeCodes] *)
Record EscapeCodes : Type := {
  Black : string; Red : string; Green : string; Yellow : string;
  Blue : string; Magenta : string; Cyan : string; White : string;
  Reset : string
}.

Definition vt100EscapeCodes : EscapeCodes := {|
  Black := esc +:+ "[30m"; Red := esc +:+ "[31m"; Green := esc +:+ "[32m";
  Yellow := esc +:+ "[33m"; Blue := esc +:+ "[34m"; Magenta := esc +:+ "[35m";
  Cyan := esc +:+ "[36m"; White := esc +:+ "[37m"; Reset := esc +:+ "[0m"
|}.

(** What the operator sees: the prompt put up by a [ReadLine], or the bytes
    of one [Write]. *)
Inductive event : Type :=
| Prompted (p : string)
| Wrote (buf : string).

(** [*term.Terminal]: [input n] is what the [n]-th [ReadLine] of the session
    returns, [cursor] counts the reads done so far. *)
Record Terminal : Type := {
  Escape : EscapeCodes;
  prompt : string;
  shown : list event;
  input : nat → string * option error;
  cursor : nat
}.

Definition NewTerminal (input : nat → string * option error) (prompt : string)
  : Terminal :=
  {| Escape := vt100EscapeCodes; prompt := prompt; shown := [];
     input := input; cursor := 0%nat |}.

Definition SetPrompt (t : Terminal) (p : string) : Terminal :=
  {| Escape := Escape t; prompt := p; shown := shown t;
     input := input t; cursor := cursor t |}.

Definition Write (t : Terminal) (buf : string) : Terminal :=
  {| Escape := Escape t; prompt := prompt t; shown := shown t ++ [Wrote buf];
     input := input t; cursor := cursor t |}.

Definition ReadLine (t : Terminal) : Terminal * (string * option error) :=
  ({| Escape := Escape t; prompt := prompt t;
      shown := shown t ++ [Prompted (prompt t)];
      input := input t; cursor := S (cursor t) |},
   input t (cursor t)).

(** [fmt.Fprintln(term, s)]: one [Write] of [s] and a newline. *)
Definition Fprintln (t : Terminal) (s : string) : Terminal :=
  Write t (s +:+ newline).

(** A finite script of reads, after which the stream is closed. *)
Definition script (l : list (string * option error)) : nat → string * option error :=
  λ n, nth n l ("", Some io_EOF).

(** ** Commands and the registry *)

Definition CmdFn : Type :=
  Terminal → list string → Terminal * (string * option error).

(** [type Cmd struct]; the fields live in a module of their own because
    the package also has a function [Help]. *)
Module Cmd.
Record t : Type := {
  Name : string;
  Args : Z;
  Pattern : option Regexp;
  Syntax : string;
  Help : string;
  Fn : CmdFn
}.
End Cmd.
Abbreviation Cmd := Cmd.t.

(** [var cmds = make(map[string]*Cmd)] *)
Definition cmds0 : gmap string Cmd := ∅.

Definition Add (cmd : Cmd) (cmds : gmap string Cmd) : gmap string Cmd :=
  <[Cmd.Name cmd := cmd]> cmds.

(** The registry after a sequence of [Add] calls, first call first. *)
Definition registered (adds : list Cmd) : gmap string Cmd :=
  foldl (λ cmds cmd, Add cmd cmds) cmds0 adds.

(** The orders in which [for _, cmd := range cmds] can visit the values,
    and [for name := range cmds] the keys. *)
Definition range_values (cmds : gmap string Cmd) (order : list Cmd) : Prop :=
  order ≡ₚ (map_to_list cmds).*2.

Definition range_keys (cmds : gmap string Cmd) (order : list string) : Prop :=
  order ≡ₚ (map_to_list cmds).*1.

(** ** Handle *)

(** The body of the loop of [Handle] for one command: [Some arg] when the
    command is taken ([match = cmd], [arg] as left by that branch, [break]),
    [None] when the loop goes on. *)
Definition Handle_try (cmd : Cmd) (line : string) : option (list string) :=
  match Cmd.Pattern cmd with
  | None =>
      if String.eqb (Cmd.Name cmd) line then Some [] else None
  | Some re =>
      let m := FindStringSubmatch re line in
      if bool_decide (Z.of_nat (length m) > 0)
         && bool_decide (Z.of_nat (length m) - 1 = Cmd.Args cmd)
      then Some (tail m) else None
  end.

(** The loop: the first command of the traversal that is taken. *)
Fixpoint Handle_range (order : list Cmd) (line : string)
  : option (Cmd * list string) :=
  match order with
  | [] => None
  | cmd :: rest =>
      match Handle_try cmd line with
      | Some arg => Some (cmd, arg)
      | None => Handle_range rest line
      end
  end.

Definition unknown_command : string := "unknown command, type `help`".

(** What [Handle] does with the outcome of [match.Fn(term, arg)]. *)
Definition Handle_return (out : Terminal * (string * option error))
  : Terminal * option error :=
  let '(term1, (res, err)) := out in
  match err with
  | Some e => (term1, Some e)
  | None => (Fprintln term1 res, None)
  end.

Definition Handle (order : list Cmd) (term : Terminal) (line : string)
  : Terminal * option error :=
  match Handle_range order line with
  | None => (term, Some (errors_New unknown_command))
  | Some (match_, arg) => Handle_return (Cmd.Fn match_ term arg)
  end.

(** ** confirm *)

(** The prompt of the console: [Escape.Red + "> " + Escape.Reset]. *)
Definition console_prompt (t : Terminal) : string :=
  Red (Escape t) +:+ "> " +:+ Reset (Escape t).

Definition confirm_prompt : string := "Are you sure? (y/n) ".

(** The argument of the deferred [SetPrompt] is evaluated at the [defer]
    statement, the call itself runs when [confirm] returns. *)
Definition confirm (term : Terminal) : Terminal * bool :=
  let term1 := SetPrompt term confirm_prompt in
  let deferred := console_prompt term1 in
  let '(term2, (input, err)) := ReadLine term1 in
  let result :=
    match err with
    | Some _ => false
    | None => String.eqb input "y"
    end in
  (SetPrompt term2 deferred, result).

(** ** The log *)

Inductive log_entry : Type :=
| klog_Info (s : string)
| klog_Error (s : string).

(** ** msg *)

Definition separator : string := "-".
Definition separatorSize : Z := 80.

Section Msg.
Context {Arg : Type}.
(** [fmt.Sprintf] *)
Variable Sprintf : string → list Arg → string.

(** [None] is the panic of [strings.Repeat]. *)
Definition msg (format : string) (args : list Arg) (log : list log_entry)
  : option (list log_entry) :=
  dashes ← strings_Repeat separator 2;
  let s := dashes +:+ " " in
  let s := s +:+ Sprintf format args in
  padding ← strings_Repeat separator (separatorSize - len s);
  let s := s +:+ padding in
  Some (log ++ [klog_Info s]).
End Msg.

(** ** Help *)

(** Go compares strings byte by byte. *)
Definition string_le (a b : string) : Prop := String.leb a b = true.
Definition string_lt (a b : string) : Prop := String.ltb a b = true.

#[global] Instance string_le_dec : RelDecision string_le.
Proof. intros a b. unfold string_le. apply _. Defined.

(** [sort.Strings] *)
Definition sort_Strings (names : list string) : list string :=
  merge_sort string_le names.

(** [fmt.Fprintf(t, "%s\t%s\t # %s\n", cmd.Name, cmd.Syntax, cmd.Help)] *)
Definition Help_row (cmd : Cmd) : string :=
  Cmd.Name cmd +:+ tab +:+ Cmd.Syntax cmd +:+ tab +:+ " # " +:+ Cmd.Help cmd
  +:+ newline.

(** The rows written to the tabwriter: the names in traversal order are
    sorted, then each is looked up again. [None] is the nil dereference of
    [cmds[name].Name] for a name that is not registered. *)
Definition Help_rows (order : list string) (cmds : gmap string Cmd)
  : option (list string) :=
  let names := sort_Strings order in
  mapM (λ name, Help_row <$> cmds !! name) names.

Section Help.
(** [tabwriter.NewWriter(&help, 16, 8, 0, '\t', tabwriter.TabIndent)]: the
    text in the buffer after the given writes and a [Flush]. *)
Variable tabwriter : list string → string.

Definition Help (order : list string) (cmds : gmap string Cmd) (term : Terminal)
  : option string :=
  rows ← Help_rows order cmds;
  Some (Cyan (Escape term) +:+ tabwriter rows +:+ Reset (Escape term)).

(** ** Console *)

(** The state of the loop of [Console]. *)
Inductive loop : Type :=
| Running (term : Terminal) (log : list log_entry)
| Terminated (term : Terminal) (log : list log_entry).

(** One turn of the [for] loop, with the order in which its [Handle] ranges
    over the registry. *)
Definition Console_iter (order : list Cmd) (term : Terminal) (log : list log_entry)
  : loop :=
  let '(term1, (s, err)) := ReadLine term in
  match err with
  | Some e =>
      if decide (e = io_EOF) then Terminated term1 log
      else Running term1 (log ++ [klog_Error ("readline error: " +:+ Error e)])
  | None =>
      let '(term2, err) := Handle order term1 s in
      match err with
      | Some e =>
          if decide (e = io_EOF) then Terminated term2 log
          else Running term2 (log ++ [klog_Error ("command error: " +:+ Error e)])
      | None => Running term2 log
      end
  end.

(** The state after [n] turns; [orders k] is the traversal of turn [k]. *)
Fixpoint Console_turns (n : nat) (orders : nat → list Cmd) (st : loop) : loop :=
  match n with
  | O => st
  | S n' =>
      match st with
      | Running term log =>
          Console_turns n' (λ k, orders (S k)) (Console_iter (orders O) term log)
      | Terminated _ _ => st
      end
  end.

(** The loop run for at most [fuel] turns: [Some] when it has left the loop. *)
Definition Console_loop (fuel : nat) (orders : nat → list Cmd)
    (term : Terminal) (log : list log_entry)
  : option (Terminal * list log_entry) :=
  match Console_turns fuel orders (Running term log) with
  | Terminated term' log' => Some (term', log')
  | Running _ _ => None
  end.

(** The two writes before the loop; [None] if [Help] panics. *)
Definition Console_banner (Banner : string) (help_order : list string)
    (cmds : gmap string Cmd) (term : Terminal) : option Terminal :=
  let term1 := Write term (Banner +:+ newline +:+ newline) in
  help ← Help help_order cmds term1;
  Some (Write term1 (help +:+ newline)).

Definition Console (Banner : string) (cmds : gmap string Cmd)
    (help_order : list string) (orders : nat → list Cmd) (fuel : nat)
    (term : Terminal) (log : list log_entry)
  : option (Terminal * list log_entry) :=
  term1 ← Console_banner Banner help_order cmds term;
  Console_loop fuel orders term1 log.

(** [console] is the stream the terminal is bound to. *)
Definition SerialConsole (Banner : string) (cmds : gmap string Cmd)
    (help_order : list string) (orders : nat → list Cmd) (fuel : nat)
    (console : nat → string * option error) (log : list log_entry)
  : option (Terminal * list log_entry) :=
  let term := NewTerminal console "" in
  let term := SetPrompt term (console_prompt term) in
  Console Banner cmds help_order orders fuel term log.
End Help.

(** * Vocabulary of the specification *)

(** A command matches a line: by its name when it has no pattern, by its
    pattern with [Args] captured groups otherwise. *)
Definition matches (cmd : Cmd) (line : string) : Prop :=
  match Cmd.Pattern cmd with
  | None => Cmd.Name cmd = line
  | Some re =>
      let m := FindStringSubmatch re line in
      m ≠ [] ∧ Z.of_nat (length (tail m)) = Cmd.Args cmd
  end.

(** The captured groups, without the full match. *)
Definition captures (cmd : Cmd) (line : string) : list string :=
  match Cmd.Pattern cmd with
  | None => []
  | Some re => tail (FindStringSubmatch re line)
  end.

(** [Handle] selects [cmd]: its loop ends with [match = cmd]. *)
Definition selects (order : list Cmd) (line : string) (cmd : Cmd) : Prop :=
  ∃ arg, Handle_range order line = Some (cmd, arg).

(** The most recent registration under a name. *)
Definition latest (adds : list Cmd) (name : string) : option Cmd :=
  last (filter (λ cmd, Cmd.Name cmd = name) adds).

(** The same command with another [Args]. *)
Definition with_Args (n : Z) (cmd : Cmd) : Cmd :=
  {| Cmd.Name := Cmd.Name cmd; Cmd.Args := n; Cmd.Pattern := Cmd.Pattern cmd;
     Cmd.Syntax := Cmd.Syntax cmd; Cmd.Help := Cmd.Help cmd; Cmd.Fn := Cmd.Fn cmd |}.

(** A turn of the console loop meets end of stream: the read returns
    [io.EOF], or the line is read and [Handle] returns [io.EOF]. *)
Definition EOF_turn (order : list Cmd) (term : Terminal) : Prop :=
  let '(term1, (s, err)) := ReadLine term in
  err = Some io_EOF ∨ (err = None ∧ (Handle order term1 s).2 = Some io_EOF).

(** The terminal and the log of a loop state. *)
Definition loop_term (st : loop) : Terminal :=
  match st with
  | Running term _ | Terminated term _ => term
  end.

Definition loop_log (st : loop) : list log_entry :=
  match st with
  | Running _ log | Terminated _ log => log
  end.

Definition is_klog_Error (entry : log_entry) : Prop :=
  match entry with
  | klog_Error _ => True
  | klog_Info _ => False
  end.

(** A handler that uses the stream it is given by reading from it: the
    reads it does move the cursor forward, the stream stays the same. *)
Definition consumes_input (fn : CmdFn) : Prop :=
  ∀ term arg,
    input (fn term arg).1 = input term ∧
    (cursor term ≤ cursor (fn term arg).1)%nat.

(** A handler that returns with the prompt it was called with. *)
Definition keeps_prompt (fn : CmdFn) : Prop :=
  ∀ term arg, prompt (fn term arg).1 = prompt term.

(** A handler that, called under the console prompt, returns under the
    console prompt (as one does that changes the prompt only through
    [confirm]). *)
Definition keeps_console_prompt (fn : CmdFn) : Prop :=
  ∀ term arg,
    prompt term = console_prompt term →
    prompt (fn term arg).1 = console_prompt (fn term arg).1.

(** * A small console

    The registry of the specification's end-to-end example, with stand-ins
    for the compiled patterns. *)

Definition is_digit (c : Ascii.ascii) : bool :=
  let n := Ascii.nat_of_ascii c in (48 <=? n)%nat && (n <=? 57)%nat.

Fixpoint digits (s : string) : bool :=
  match s with
  | EmptyString => true
  | String c s' => is_digit c && digits s'
  end.

(** [regexp.MustCompile("^set (\d+)$")] *)
Definition set_number : Regexp := {|
  FindStringSubmatch line :=
    let rest := String.substring 4 (String.length line - 4) line in
    if String.prefix "set " line && negb (String.eqb rest "") && digits rest
    then [line; rest] else []
|}.

Definition say (res : string) : CmdFn := λ term _, (term, (res, None)).

Definition fail (text : string) : CmdFn :=
  λ term _, (term, ("", Some (errors_New text))).

Definition cmd_help : Cmd :=
  {| Cmd.Name := "help"; Cmd.Args := 0; Cmd.Pattern := None;
     Cmd.Syntax := ""; Cmd.Help := "this help"; Cmd.Fn := say "commands" |}.

Definition cmd_reboot : Cmd :=
  {| Cmd.Name := "reboot"; Cmd.Args := 0; Cmd.Pattern := None;
     Cmd.Syntax := ""; Cmd.Help := "reset device";
     Cmd.Fn := λ term _,
       let '(term1, yes) := confirm term in
       if yes then (term1, ("rebooting", None))
       else (term1, ("", Some (errors_New "aborted"))) |}.

Definition cmd_set_x : Cmd :=
  {| Cmd.Name := "set-x"; Cmd.Args := 1; Cmd.Pattern := Some set_number;
     Cmd.Syntax := "<n>"; Cmd.Help := "set x";
     Cmd.Fn := λ term arg, (term, (String.concat "," arg, None)) |}.

(** A second command whose pattern overlaps with that of [cmd_set_x]. *)
Definition cmd_set_y : Cmd :=
  {| Cmd.Name := "set-y"; Cmd.Args := 1; Cmd.Pattern := Some set_number;
     Cmd.Syntax := "<n>"; Cmd.Help := "set y"; Cmd.Fn := say "y" |}.

Definition cmd_status : Cmd :=
  {| Cmd.Name := "status"; Cmd.Args := 2; Cmd.Pattern := None;
     Cmd.Syntax := ""; Cmd.Help := "status"; Cmd.Fn := fail "not ready" |}.

(** A later registration under the name of [cmd_help]. *)
Definition cmd_help_again : Cmd :=
  {| Cmd.Name := "help"; Cmd.Args := 0; Cmd.Pattern := None;
     Cmd.Syntax := "[cmd]"; Cmd.Help := "help on a command";
     Cmd.Fn := say "usage" |}.

Definition demo_adds : list Cmd := [cmd_help; cmd_reboot; cmd_set_x].

(** [fmt.Sprintf] on a call without arguments and a format without verbs. *)
Definition Sprintf_verbatim (format : string) (args : list string) : string :=
  format.

(** 78 bytes. *)
Definition long_message : string :=
  "the witness could not reach any of its configured log endpoints before timeout".

(** * String order *)

Lemma ascii_compare_cases (a b : Ascii.ascii) :
  match Ascii.compare a b with
  | Eq => a = b
  | Lt => (Ascii.N_of_ascii a < Ascii.N_of_ascii b)%N
  | Gt => (Ascii.N_of_ascii b < Ascii.N_of_ascii a)%N
  end.
Proof.
  destruct (Ascii.compare a b) eqn:E.
  - by apply Ascii.compare_eq_iff.
  - by apply N.compare_lt_iff.
  - by apply N.compare_gt_iff.
Qed.

Lemma string_compare_refl (s : string) : String.compare s s = Eq.
Proof.
  induction s as [|a s IH]; simpl; [done|].
  unfold Ascii.compare. by rewrite N.compare_refl.
Qed.

#[global] Instance string_le_trans : Transitive string_le.
Proof.
  unfold string_le, String.leb. intros x.
  induction x as [|a x IH]; intros [|b y] [|c z]; simpl; try done.
  pose proof (ascii_compare_cases a b) as Hab.
  pose proof (ascii_compare_cases b c) as Hbc.
  pose proof (ascii_compare_cases a c) as Hac.
  destruct (Ascii.compare a b), (Ascii.compare b c), (Ascii.compare a c);
    subst; try done; try lia; try (by apply IH).
Qed.

#[global] Instance string_le_total : Total string_le.
Proof. intros x y. apply String.leb_total. Qed.

#[global] Instance string_le_antisym : AntiSymm (=) string_le.
Proof. intros x y. apply String.leb_antisym. Qed.

Lemma string_lt_le_ne (a b : string) : string_lt a b ↔ string_le a b ∧ a ≠ b.
Proof.
  unfold string_lt, string_le, String.ltb, String.leb. split.
  - intros H. split; [by destruct (String.compare a b)|].
    intros ->. by rewrite string_compare_refl in H.
  - intros [H Hne]. destruct (String.compare a b) eqn:E; try done.
    by apply String.compare_eq_iff in E.
Qed.

(** * The registry *)

Lemma registered_snoc (adds : list Cmd) (cmd : Cmd) :
  registered (adds ++ [cmd]) = Add cmd (registered adds).
Proof. unfold registered. by rewrite foldl_app. Qed.

Lemma registered_lookup (adds : list Cmd) (name : string) :
  registered adds !! name = latest adds name.
Proof.
  induction adds as [|cmd adds IH] using rev_ind; [done|].
  rewrite registered_snoc. unfold Add, latest in *. rewrite filter_app.
  destruct (decide (Cmd.Name cmd = name)) as [Heq|Hne].
  - rewrite Heq, lookup_insert_eq, filter_cons_True, filter_nil by done.
    by rewrite last_snoc.
  - rewrite lookup_insert_ne, filter_cons_False, filter_nil, app_nil_r by done.
    done.
Qed.

Lemma latest_Some (adds : list Cmd) (name : string) (cmd : Cmd) :
  latest adds name = Some cmd → cmd ∈ adds ∧ Cmd.Name cmd = name.
Proof.
  unfold latest. intros H.
  assert (cmd ∈ filter (λ cmd, Cmd.Name cmd = name) adds) as Hin.
  { apply last_Some in H as [l' ->]. set_solver. }
  by apply list_elem_of_filter in Hin as [? ?].
Qed.

Lemma latest_is_Some (adds : list Cmd) (name : string) :
  is_Some (latest adds name) ↔ ∃ cmd, cmd ∈ adds ∧ Cmd.Name cmd = name.
Proof.
  split.
  - intros [cmd H]. exists cmd. by apply latest_Some.
  - intros (cmd & Hin & Hname). unfold latest.
    destruct (last _) eqn:E; [by eexists|].
    apply last_None in E.
    assert (cmd ∈ filter (λ cmd, Cmd.Name cmd = name) adds) as Hf
      by by apply list_elem_of_filter.
    rewrite E in Hf. by apply elem_of_nil in Hf.
Qed.

(** Every entry is filed under its own name. *)
Lemma registered_wf (adds : list Cmd) (name : string) (cmd : Cmd) :
  registered adds !! name = Some cmd → Cmd.Name cmd = name.
Proof.
  rewrite registered_lookup. intros H. by apply latest_Some in H as [_ ?].
Qed.

Lemma range_values_elem (cmds : gmap string Cmd) (order : list Cmd) (cmd : Cmd) :
  range_values cmds order → cmd ∈ order ↔ ∃ name, cmds !! name = Some cmd.
Proof.
  unfold range_values. intros ->. rewrite list_elem_of_fmap. split.
  - intros ([name c] & -> & Hin). exists name. by apply elem_of_map_to_list.
  - intros [name H]. exists (name, cmd). split; [done|].
    by apply elem_of_map_to_list.
Qed.

Lemma registered_values_keys (adds : list Cmd) :
  Cmd.Name <$> (map_to_list (registered adds)).*2
  = (map_to_list (registered adds)).*1.
Proof.
  rewrite <-list_fmap_compose. apply Forall_fmap_ext, Forall_forall.
  intros [name cmd] Hin. apply elem_of_map_to_list in Hin. simpl.
  by apply registered_wf in Hin.
Qed.

(** A traversal of the registry meets no command twice. *)
Lemma range_values_NoDup (adds order : list Cmd) :
  range_values (registered adds) order → NoDup order.
Proof.
  unfold range_values. intros ->.
  apply (NoDup_fmap_1 Cmd.Name). rewrite registered_values_keys.
  apply NoDup_fst_map_to_list.
Qed.

Lemma range_keys_NoDup (cmds : gmap string Cmd) (order : list string) :
  range_keys cmds order → NoDup order.
Proof. unfold range_keys. intros ->. apply NoDup_fst_map_to_list. Qed.

Lemma range_keys_elem (cmds : gmap string Cmd) (order : list string) (name : string) :
  range_keys cmds order → name ∈ order ↔ is_Some (cmds !! name).
Proof.
  unfold range_keys. intros ->. rewrite list_elem_of_fmap. split.
  - intros ([k c] & -> & Hin). exists c. by apply elem_of_map_to_list.
  - intros [c H]. exists (name, c). split; [done|]. by apply elem_of_map_to_list.
Qed.

(** Commands registered under distinct names can be met in any order. *)
Lemma map_to_list_registered (adds : list Cmd) :
  NoDup (Cmd.Name <$> adds) →
  map_to_list (registered adds) ≡ₚ (λ cmd, (Cmd.Name cmd, cmd)) <$> adds.
Proof.
  induction adds as [|cmd adds IH] using rev_ind; intros Hnd.
  - unfold registered, cmds0. simpl. by rewrite map_to_list_empty.
  - rewrite fmap_app in Hnd. apply NoDup_app in Hnd as (Hnd & Hfresh & _).
    rewrite registered_snoc, fmap_app. unfold Add. simpl.
    rewrite map_to_list_insert.
    + rewrite (IH Hnd). apply Permutation_cons_append.
    + destruct (registered adds !! Cmd.Name cmd) as [c|] eqn:E; [|done].
      rewrite registered_lookup in E. apply latest_Some in E as [Hin Hname].
      exfalso. apply (Hfresh (Cmd.Name cmd)); [|set_solver].
      rewrite <-Hname. by apply list_elem_of_fmap_2.
Qed.

Lemma range_values_registered (adds order : list Cmd) :
  NoDup (Cmd.Name <$> adds) → order ≡ₚ adds →
  range_values (registered adds) order.
Proof.
  intros Hnd Hp. unfold range_values.
  rewrite (map_to_list_registered adds Hnd), <-list_fmap_compose.
  rewrite Hp. by rewrite list_fmap_id.
Qed.

Lemma range_keys_registered (adds : list Cmd) (order : list string) :
  NoDup (Cmd.Name <$> adds) → order ≡ₚ Cmd.Name <$> adds →
  range_keys (registered adds) order.
Proof.
  intros Hnd Hp. unfold range_keys.
  by rewrite (map_to_list_registered adds Hnd), <-list_fmap_compose.
Qed.

(** * Handle: which command is selected *)

Lemma Handle_try_Some (cmd : Cmd) (line : string) (arg : list string) :
  Handle_try cmd line = Some arg ↔ matches cmd line ∧ arg = captures cmd line.
Proof.
  unfold Handle_try, matches, captures.
  destruct (Cmd.Pattern cmd) as [re|]; simpl.
  - destruct (FindStringSubmatch re line) as [|full groups];
      repeat case_bool_decide; simpl in *; naive_solver lia.
  - destruct (String.eqb_spec (Cmd.Name cmd) line); naive_solver.
Qed.

Lemma Handle_try_None (cmd : Cmd) (line : string) :
  Handle_try cmd line = None ↔ ¬ matches cmd line.
Proof.
  destruct (Handle_try cmd line) as [arg|] eqn:E.
  - apply Handle_try_Some in E as [Hm _]. naive_solver.
  - split; [|done]. intros _ Hm.
    assert (Handle_try cmd line = Some (captures cmd line)) as E'
      by by apply Handle_try_Some.
    congruence.
Qed.

Lemma Handle_range_None (order : list Cmd) (line : string) :
  Handle_range order line = None ↔ Forall (λ cmd, ¬ matches cmd line) order.
Proof.
  induction order as [|cmd order IH]; simpl.
  - split; [constructor|done].
  - rewrite Forall_cons, <-IH, <-Handle_try_None.
    destruct (Handle_try cmd line); naive_solver.
Qed.

Lemma Handle_range_skip (pre rest : list Cmd) (line : string) :
  Forall (λ cmd, ¬ matches cmd line) pre →
  Handle_range (pre ++ rest) line = Handle_range rest line.
Proof.
  induction 1 as [|cmd pre Hcmd _ IH]; simpl; [done|].
  apply Handle_try_None in Hcmd. by rewrite Hcmd.
Qed.

(** The selected command matches and nothing met before it does. *)
Lemma Handle_range_Some (order : list Cmd) (line : string) (cmd : Cmd)
    (arg : list string) :
  Handle_range order line = Some (cmd, arg) →
  matches cmd line ∧ arg = captures cmd line ∧
  ∃ pre post, order = pre ++ cmd :: post ∧ Forall (λ c, ¬ matches c line) pre.
Proof.
  induction order as [|c order IH]; simpl; [done|].
  destruct (Handle_try c line) as [a|] eqn:E.
  - intros [= -> ->]. apply Handle_try_Some in E as [? ?].
    split_and!; [done..|]. by exists [], order.
  - intros H. destruct (IH H) as (? & ? & pre & post & -> & Hpre).
    split_and!; [done..|]. exists (c :: pre), post. split; [done|].
    constructor; [by apply Handle_try_None|done].
Qed.

Lemma Handle_range_at (pre post : list Cmd) (cmd : Cmd) (line : string)
    (arg : list string) :
  cmd ∉ pre →
  Handle_range (pre ++ cmd :: post) line = Some (cmd, arg) ↔
  matches cmd line ∧ arg = captures cmd line ∧
  Forall (λ c, ¬ matches c line) pre.
Proof.
  intros Hfresh. split.
  - induction pre as [|c pre IH].
    + intros H. apply Handle_range_Some in H as (? & ? & _). by split_and!.
    + apply not_elem_of_cons in Hfresh as [Hne Hfresh]. simpl.
      destruct (Handle_try c line) as [a|] eqn:E; [by intros [= -> ->]|].
      intros H. destruct (IH Hfresh H) as (? & ? & ?). split_and!; [done..|].
      constructor; [by apply Handle_try_None|done].
  - intros (Hm & -> & Hpre). rewrite Handle_range_skip by done. simpl.
    assert (Handle_try cmd line = Some (captures cmd line)) as ->
      by by apply Handle_try_Some.
    done.
Qed.

Lemma Handle_selected (order : list Cmd) (term : Terminal) (line : string)
    (cmd : Cmd) (arg : list string) :
  Handle_range order line = Some (cmd, arg) →
  Handle order term line = Handle_return (Cmd.Fn cmd term arg).
Proof. unfold Handle. by intros ->. Qed.

Lemma Handle_try_with_Args (n : Z) (cmd : Cmd) (line : string) :
  Cmd.Pattern cmd = None →
  Handle_try (with_Args n cmd) line = Handle_try cmd line.
Proof. unfold Handle_try. simpl. by intros ->. Qed.

(** A registered command that matches the line is selected by the
    traversal that meets it first. *)
Lemma Handle_may_select (cmds : gmap string Cmd) (order : list Cmd) (cmd : Cmd)
    (line : string) :
  range_values cmds order → cmd ∈ order → matches cmd line →
  ∃ order', range_values cmds order' ∧ selects order' line cmd.
Proof.
  intros Hrange Hin Hm. apply elem_of_Permutation in Hin as [rest Hp].
  exists (cmd :: rest). split.
  - unfold range_values in *. by rewrite <-Hp.
  - exists (captures cmd line). apply (Handle_range_at [] rest); [set_solver|].
    by split_and!.
Qed.

(** C1, as the claim words it, fails where two registered patterns overlap:
    the traversal that meets [cmd_set_x] first never selects [cmd_set_y],
    whose pattern matches the line with its one group all the same. *)
Lemma Handle_passes_over_later_match :
  let order := [cmd_set_x; cmd_set_y] in
  let m := FindStringSubmatch set_number "set 42" in
  range_values (registered [cmd_set_x; cmd_set_y]) order ∧
  Cmd.Pattern cmd_set_y = Some set_number ∧
  ¬ (selects order "set 42" cmd_set_y ↔
     m ≠ [] ∧ Z.of_nat (length (tail m)) = Cmd.Args cmd_set_y).
Proof.
  split_and!.
  - apply range_values_registered; [|done].
    compute_done.
  - done.
  - intros [_ Hsel]. destruct Hsel as [arg Hsel]; [by vm_compute|].
    vm_compute in Hsel. discriminate Hsel.
Qed.

(** C1 (amended): a registered command with a pattern is selected for a
    line exactly when its pattern matches the line, the number of captured
    groups (the full match left out) is its [Args], and no command that the
    traversal of the registry meets before it matches the line; the handler
    is then called with those groups, in order, without the full match. *)
Theorem Handle_selects_pattern_cmd (adds pre post : list Cmd) (cmd : Cmd)
    (re : Regexp) (term : Terminal) (line : string) :
  range_values (registered adds) (pre ++ cmd :: post) →
  Cmd.Pattern cmd = Some re →
  let order := pre ++ cmd :: post in
  let m := FindStringSubmatch re line in
  (selects order line cmd ↔
     m ≠ [] ∧ Z.of_nat (length (tail m)) = Cmd.Args cmd ∧
     Forall (λ c, ¬ matches c line) pre) ∧
  (selects order line cmd →
     Handle_range order line = Some (cmd, tail m) ∧
     Handle order term line = Handle_return (Cmd.Fn cmd term (tail m))).
Proof.
  intros Hrange Hpat order m.
  assert (cmd ∉ pre) as Hfresh.
  { apply range_values_NoDup, NoDup_app in Hrange as (_ & Hdisj & _).
    intros Hin. apply (Hdisj cmd Hin). set_solver. }
  assert (matches cmd line ↔
          m ≠ [] ∧ Z.of_nat (length (tail m)) = Cmd.Args cmd) as Hm
    by (unfold matches; by rewrite Hpat).
  assert (captures cmd line = tail m) as Hc
    by (unfold captures; by rewrite Hpat).
  split.
  - unfold selects. split.
    + intros [arg H]. apply Handle_range_at in H; [|done]. naive_solver.
    + intros (? & ? & ?). exists (tail m).
      apply Handle_range_at; [done|]. naive_solver.
  - intros [arg H]. pose proof H as H'.
    apply Handle_range_at in H' as (_ & -> & _); [|done].
    rewrite Hc in H. split; [done|]. by apply Handle_selected.
Qed.

Lemma Handle_selects_pattern_cmd_witness :
  let order := [cmd_reboot] ++ cmd_set_x :: [cmd_help] in
  selects order "set 42" cmd_set_x ∧
  Handle_range order "set 42" = Some (cmd_set_x, ["42"]).
Proof.
  assert (range_values (registered demo_adds) ([cmd_reboot] ++ cmd_set_x :: [cmd_help]))
    as Hrange.
  { apply range_values_registered.
    - compute_done.
    - symmetry. apply (Permutation_cons_append [cmd_reboot; cmd_set_x] cmd_help). }
  destruct (Handle_selects_pattern_cmd demo_adds [cmd_reboot] [cmd_help]
              cmd_set_x set_number (NewTerminal (script []) "") "set 42"
              Hrange eq_refl) as [Hiff Hcall].
  assert (selects ([cmd_reboot] ++ cmd_set_x :: [cmd_help]) "set 42" cmd_set_x)
    as Hsel.
  { apply Hiff. split_and!; [by vm_compute..|].
    constructor; [|constructor]. unfold matches. simpl. discriminate. }
  split; [exact Hsel|]. exact (proj1 (Hcall Hsel)).
Defined.

Lemma Handle_exact_selected_inv (order : list Cmd) (cmd : Cmd)
    (term : Terminal) (line : string) :
  Cmd.Pattern cmd = None →
  selects order line cmd →
  Cmd.Name cmd = line ∧
  Handle_range order line = Some (cmd, []) ∧
  Handle order term line = Handle_return (Cmd.Fn cmd term []).
Proof.
  intros Hpat [arg H]. pose proof H as H'.
  apply Handle_range_Some in H' as (Hm & -> & _).
  unfold matches, captures in *. rewrite Hpat in *.
  split_and!; [done..|]. by apply Handle_selected.
Qed.

(** C2: a registered command without pattern is selected only for the line
    that is its name, byte for byte, and its handler is then called with an
    empty argument list. *)
Theorem Handle_selects_exact_cmd (order : list Cmd) (cmd : Cmd)
    (term : Terminal) (line : string) :
  Cmd.Pattern cmd = None →
  selects order line cmd →
  Cmd.Name cmd = line ∧
  Handle_range order line = Some (cmd, []) ∧
  Handle order term line = Handle_return (Cmd.Fn cmd term []).
Proof. apply Handle_exact_selected_inv. Qed.

Lemma Handle_selects_exact_cmd_witness :
  Cmd.Name cmd_help = "help" ∧
  Handle_range [cmd_set_x; cmd_reboot; cmd_help] "help" = Some (cmd_help, []).
Proof.
  destruct (Handle_selects_exact_cmd [cmd_set_x; cmd_reboot; cmd_help] cmd_help
              (NewTerminal (script []) "") "help" eq_refl) as (Hname & Hsel & _).
  - exists []. reflexivity.
  - split; [exact Hname|exact Hsel].
Defined.

(** Conversely, the line that is the name of a command without pattern
    selects it unless the traversal meets another matching command first. *)
Lemma Handle_exact_cmd_selected (pre post : list Cmd) (cmd : Cmd)
    (term : Terminal) :
  Cmd.Pattern cmd = None → cmd ∉ pre →
  Forall (λ c, ¬ matches c (Cmd.Name cmd)) pre →
  Handle (pre ++ cmd :: post) term (Cmd.Name cmd)
  = Handle_return (Cmd.Fn cmd term []).
Proof.
  intros Hpat Hfresh Hpre. apply Handle_selected, Handle_range_at; [done|].
  unfold matches, captures. by rewrite Hpat.
Qed.

(** The comparison of C2 distinguishes case and does not accept a prefix. *)
Example Handle_exact_name_only :
  Handle_range [cmd_help] "Help" = None ∧
  Handle_range [cmd_help] "help " = None ∧
  Handle_range [cmd_help] "hel" = None.
Proof. by split_and!. Qed.

(** C3: a line that no registered command matches, neither by name nor by
    pattern with the right number of groups, makes [Handle] return the
    error "unknown command, type `help`" and leaves the session as it was,
    nothing written. *)
Theorem Handle_unknown_command (cmds : gmap string Cmd) (order : list Cmd)
    (term : Terminal) (line : string) :
  range_values cmds order →
  (∀ name cmd, cmds !! name = Some cmd → ¬ matches cmd line) →
  ∃ e, Handle order term line = (term, Some e) ∧
       e = errors_New "unknown command, type `help`" ∧
       Error e = "unknown command, type `help`".
Proof.
  intros Hrange Hnone. exists (errors_New unknown_command).
  split; [|done]. unfold Handle.
  assert (Handle_range order line = None) as ->; [|done].
  apply Handle_range_None, Forall_forall. intros cmd Hin.
  apply (range_values_elem _ _ _ Hrange) in Hin as [name Hin]. eauto.
Qed.

Lemma demo_adds_no_match_set (name : string) (cmd : Cmd) :
  registered demo_adds !! name = Some cmd → ¬ matches cmd "set".
Proof.
  rewrite registered_lookup. intros H. apply latest_Some in H as [Hin _].
  apply list_elem_of_In in Hin. simpl in Hin.
  destruct Hin as [<-|[<-|[<-|[]]]]; unfold matches; simpl;
    [discriminate|discriminate|]. by intros [? _].
Qed.

Lemma Handle_unknown_command_witness :
  ∃ e, Handle demo_adds (NewTerminal (script []) "") "set"
       = (NewTerminal (script []) "", Some e) ∧
       e = errors_New "unknown command, type `help`" ∧
       Error e = "unknown command, type `help`".
Proof.
  apply (Handle_unknown_command (registered demo_adds)).
  - apply range_values_registered; [compute_done|reflexivity].
  - exact demo_adds_no_match_set.
Defined.

(** C4: when the selected handler returns an error, [Handle] returns that
    very error and the session is as the handler left it, nothing written;
    when the handler succeeds, [Handle] writes the result and a newline, in
    one write, and returns no error. *)
Theorem Handle_propagates_handler_outcome (order : list Cmd) (cmd : Cmd)
    (arg : list string) (term term1 : Terminal) (line res : string)
    (err : option error) :
  Handle_range order line = Some (cmd, arg) →
  Cmd.Fn cmd term arg = (term1, (res, err)) →
  match err with
  | Some e => Handle order term line = (term1, Some e)
  | None =>
      Handle order term line = (Write term1 (res +:+ newline), None) ∧
      shown (Handle order term line).1 = shown term1 ++ [Wrote (res +:+ newline)]
  end.
Proof.
  intros Hsel Hfn. rewrite (Handle_selected _ _ _ _ _ Hsel), Hfn.
  by destruct err.
Qed.

Lemma Handle_propagates_handler_outcome_witness :
  let term := NewTerminal (script []) "" in
  Handle [cmd_help; cmd_set_x] term "set 42" = (Write term ("42" +:+ newline), None) ∧
  Handle [cmd_status] term "status" = (term, Some (errors_New "not ready")).
Proof.
  split.
  - exact (proj1 (Handle_propagates_handler_outcome [cmd_help; cmd_set_x]
             cmd_set_x ["42"] (NewTerminal (script []) "")
             (NewTerminal (script []) "") "set 42" "42" None eq_refl eq_refl)).
  - exact (Handle_propagates_handler_outcome [cmd_status]
             cmd_status [] (NewTerminal (script []) "")
             (NewTerminal (script []) "") "status" "" (Some (errors_New "not ready"))
             eq_refl eq_refl).
Defined.

(** C10: for a command without pattern [Args] plays no part: with any other
    value in the field [Handle] does the same, it takes the command when
    the line is its name, and it calls the handler with an empty argument
    list. *)
Theorem Handle_ignores_Args_without_pattern (pre post : list Cmd) (cmd : Cmd)
    (n : Z) (term : Terminal) (line : string) :
  Cmd.Pattern cmd = None →
  Handle_try cmd line = (if String.eqb (Cmd.Name cmd) line then Some [] else None) ∧
  Handle_try (with_Args n cmd) line = Handle_try cmd line ∧
  Handle (pre ++ with_Args n cmd :: post) term line
  = Handle (pre ++ cmd :: post) term line ∧
  (selects (pre ++ cmd :: post) line cmd →
   Handle (pre ++ cmd :: post) term line = Handle_return (Cmd.Fn cmd term [])).
Proof.
  intros Hpat. split_and!.
  - unfold Handle_try. by rewrite Hpat.
  - by apply Handle_try_with_Args.
  - unfold Handle.
    induction pre as [|c pre IH]; simpl.
    + rewrite Handle_try_with_Args by done.
      by destruct (Handle_try cmd line).
    + by destruct (Handle_try c line).
  - intros Hsel. by apply Handle_exact_selected_inv.
Qed.

Lemma Handle_ignores_Args_without_pattern_witness :
  let term := NewTerminal (script []) "" in
  Cmd.Args cmd_status = 2 ∧
  Handle ([cmd_help] ++ with_Args 0 cmd_status :: []) term "status"
  = Handle ([cmd_help] ++ cmd_status :: []) term "status" ∧
  Handle ([cmd_help] ++ cmd_status :: []) term "status"
  = Handle_return (Cmd.Fn cmd_status term []).
Proof.
  destruct (Handle_ignores_Args_without_pattern [cmd_help] [] cmd_status 0
              (NewTerminal (script []) "") "status" eq_refl)
    as (_ & _ & Hsame & Hcall).
  split; [reflexivity|]. split; [exact Hsame|].
  apply Hcall. exists []. reflexivity.
Defined.

(** * Console: when the loop is left *)

Lemma Console_iter_Terminated (order : list Cmd) (term : Terminal)
    (log : list log_entry) :
  (∃ term' log', Console_iter order term log = Terminated term' log') ↔
  EOF_turn order term.
Proof.
  unfold Console_iter, EOF_turn.
  destruct (ReadLine term) as [term1 [s [e|]]].
  - destruct (decide (e = io_EOF)) as [->|Hne]; naive_solver.
  - destruct (Handle order term1 s) as [term2 [e|]]; simpl.
    + destruct (decide (e = io_EOF)) as [->|Hne]; naive_solver.
    + naive_solver.
Qed.

Lemma Console_iter_read_error (order : list Cmd) (term : Terminal)
    (log : list log_entry) (s : string) (e : error) :
  (ReadLine term).2 = (s, Some e) → e ≠ io_EOF →
  Console_iter order term log
  = Running (ReadLine term).1
      (log ++ [klog_Error ("readline error: " +:+ Error e)]).
Proof.
  unfold Console_iter. destruct (ReadLine term) as [term1 [s' err]]. simpl.
  intros [= -> ->] Hne. by destruct (decide (e = io_EOF)).
Qed.

Lemma Console_iter_command_error (order : list Cmd) (term term2 : Terminal)
    (log : list log_entry) (s : string) (e : error) :
  (ReadLine term).2 = (s, None) →
  Handle order (ReadLine term).1 s = (term2, Some e) → e ≠ io_EOF →
  Console_iter order term log
  = Running term2 (log ++ [klog_Error ("command error: " +:+ Error e)]).
Proof.
  unfold Console_iter. destruct (ReadLine term) as [term1 [s' err]]. simpl.
  intros [= -> ->] -> Hne. by destruct (decide (e = io_EOF)).
Qed.

Lemma Console_iter_command_done (order : list Cmd) (term term2 : Terminal)
    (log : list log_entry) (s : string) :
  (ReadLine term).2 = (s, None) →
  Handle order (ReadLine term).1 s = (term2, None) →
  Console_iter order term log = Running term2 log.
Proof.
  unfold Console_iter. destruct (ReadLine term) as [term1 [s' err]]. simpl.
  by intros [= -> ->] ->.
Qed.

(** Turn [n] is run from the state the first [n] turns lead to. *)
Lemma Console_turns_succ (n : nat) (orders : nat → list Cmd) (st : loop) :
  Console_turns (S n) orders st
  = match Console_turns n orders st with
    | Running term log => Console_iter (orders n) term log
    | Terminated term log => Terminated term log
    end.
Proof.
  revert orders st. induction n as [|n IH]; intros orders st.
  - by destruct st.
  - destruct st as [term log|term log]; [|done].
    change (Console_turns (S (S n)) orders (Running term log))
      with (Console_turns (S n) (λ k, orders (S k)) (Console_iter (orders O) term log)).
    by rewrite IH.
Qed.

Lemma Console_turns_Terminated (n : nat) (orders : nat → list Cmd)
    (term : Terminal) (log : list log_entry) :
  (∃ term' log', Console_turns n orders (Running term log) = Terminated term' log') →
  ∃ k term' log',
    (k < n)%nat ∧
    Console_turns k orders (Running term log) = Running term' log' ∧
    EOF_turn (orders k) term'.
Proof.
  induction n as [|n IH]; [by intros (? & ? & ?)|].
  rewrite Console_turns_succ.
  destruct (Console_turns n orders (Running term log)) as [t l|t l] eqn:E.
  - intros H. apply Console_iter_Terminated in H. exists n, t, l. auto with lia.
  - intros _. destruct IH as (k & t' & l' & ? & ? & ?); [by eauto|].
    exists k, t', l'. auto with lia.
Qed.

(** C5: the loop of [Console] is left exactly when a turn meets end of
    stream, as the error of the read or as the error [Handle] returns.
    Every other turn keeps the loop running: a read error and an error of
    [Handle] other than [io.EOF] (an unknown command, a failing handler) are
    logged, a command that succeeds adds nothing to the log. *)
Theorem Console_leaves_only_on_EOF (orders : nat → list Cmd) (term : Terminal)
    (log : list log_entry) :
  ((∃ fuel, is_Some (Console_loop fuel orders term log)) ↔
   ∃ n term' log',
     Console_turns n orders (Running term log) = Running term' log' ∧
     EOF_turn (orders n) term') ∧
  (∀ order,
     (∃ term' log', Console_iter order term log = Terminated term' log') ↔
     EOF_turn order term) ∧
  (∀ order s e,
     (ReadLine term).2 = (s, Some e) → e ≠ io_EOF →
     Console_iter order term log
     = Running (ReadLine term).1
         (log ++ [klog_Error ("readline error: " +:+ Error e)])) ∧
  (∀ order s term2 e,
     (ReadLine term).2 = (s, None) →
     Handle order (ReadLine term).1 s = (term2, Some e) → e ≠ io_EOF →
     Console_iter order term log
     = Running term2 (log ++ [klog_Error ("command error: " +:+ Error e)])) ∧
  (∀ order s term2,
     (ReadLine term).2 = (s, None) →
     Handle order (ReadLine term).1 s = (term2, None) →
     Console_iter order term log = Running term2 log).
Proof.
  split_and!.
  - unfold Console_loop. split.
    + intros [fuel [[term' log'] H]].
      destruct (Console_turns_Terminated fuel orders term log)
        as (k & t & l & _ & ? & ?); [|by eauto].
      destruct (Console_turns fuel orders (Running term log)); [done|eauto].
    + intros (n & t & l & Hrun & Heof). exists (S n).
      rewrite Console_turns_succ, Hrun.
      apply (Console_iter_Terminated _ _ l) in Heof as (t' & l' & ->).
      by eexists.
  - intros order. apply Console_iter_Terminated.
  - intros order s e. apply Console_iter_read_error.
  - intros order s term2 e. apply Console_iter_command_error.
  - intros order s term2. apply Console_iter_command_done.
Qed.

(** A session of C5: an unknown command, a read error and a failing handler
    are logged and the loop goes on; the closed stream ends it. *)
Lemma Console_leaves_only_on_EOF_witness :
  let term := NewTerminal (script [("bogus", None); ("", Some (errors_New "paste"));
                                   ("status", None); ("set 42", None)]) "" in
  let orders := λ _ : nat, [cmd_status; cmd_set_x] in
  (∃ fuel, is_Some (Console_loop fuel orders term [])) ∧
  snd <$> Console_loop 5 orders term []
  = Some [klog_Error "command error: unknown command, type `help`";
          klog_Error "readline error: paste";
          klog_Error "command error: not ready"].
Proof.
  split; [|reflexivity].
  apply (proj1 (Console_leaves_only_on_EOF _ _ _)).
  eexists 4%nat, _, _. split; [reflexivity|]. left. reflexivity.
Defined.

(** * confirm *)



(** The session [SerialConsole] sets up gets its prompt back. *)
Lemma confirm_restores_console_prompt (term : Terminal) :
  prompt term = console_prompt term → prompt (confirm term).1 = prompt term.
Proof.
  intros H. unfold confirm. simpl.
  by destruct (input term (cursor term)) as [line err].
Qed.

(** C7: [confirm] answers [true] exactly when the read succeeds with the
    line "y"; a read error and any other line, the empty one included, give
    [false]. The result is a plain boolean: there is no error to return. *)
Theorem confirm_true_iff_y (term : Terminal) :
  let '(line, err) := input term (cursor term) in
  ((confirm term).2 = true ↔ err = None ∧ line = "y") ∧
  (is_Some err → (confirm term).2 = false) ∧
  (line ≠ "y" → (confirm term).2 = false).
Proof.
  unfold confirm. simpl. destruct (input term (cursor term)) as [line err].
  simpl. destruct err as [e|].
  - split_and!; [naive_solver|done|done].
  - destruct (String.eqb_spec line "y"); split_and!;
      [naive_solver|by intros [? ?]|done|naive_solver|by intros [? ?]|done].
Qed.

Example confirm_answers :
  (confirm (NewTerminal (script [("y", None)]) "")).2 = true ∧
  (confirm (NewTerminal (script [("", None)]) "")).2 = false ∧
  (confirm (NewTerminal (script [("Y", None)]) "")).2 = false ∧
  (confirm (NewTerminal (script [("yes", None)]) "")).2 = false ∧
  (confirm (NewTerminal (script [("y", Some (errors_New "paste"))]) "")).2 = false ∧
  (confirm (NewTerminal (script []) "")).2 = false.
Proof. by split_and!. Qed.

(** * msg *)

Lemma string_length_app (s t : string) :
  String.length (s +:+ t) = (String.length s + String.length t)%nat.
Proof. induction s as [|c s IH]; simpl; [done|]. by rewrite IH. Qed.

Lemma repeat_string_separator_length (n : nat) :
  String.length (repeat_string separator n) = n.
Proof.
  induction n as [|n IH]; [done|].
  cbn [repeat_string]. by rewrite string_length_app, IH.
Qed.

Section MsgFacts.
Context {Arg : Type}.
Variable Sprintf : string → list Arg → string.

(** [msg] panics exactly on messages longer than 77 bytes. *)
Lemma msg_panics_iff (format : string) (args : list Arg) (log : list log_entry) :
  msg Sprintf format args log = None ↔ len (Sprintf format args) > 77.
Proof.
  unfold msg, strings_Repeat, separatorSize, len. simpl.
  rewrite string_length_app. simpl.
  case_bool_decide; simpl; split; try done; lia.
Qed.

(** Up to 77 bytes the banner is as specified: 80 bytes, dashes after the
    message. *)
Lemma msg_banner (format : string) (args : list Arg) (log : list log_entry) :
  len (Sprintf format args) <= 77 →
  ∃ n,
    msg Sprintf format args log
    = Some (log ++ [klog_Info ("-- " +:+ Sprintf format args
                                +:+ repeat_string "-" n)]) ∧
    len ("-- " +:+ Sprintf format args +:+ repeat_string "-" n) = 80.
Proof.
  intros Hlen. unfold msg, strings_Repeat, separatorSize, len in *. simpl.
  rewrite string_length_app. simpl.
  rewrite bool_decide_false by lia. simpl.
  eexists. split; [reflexivity|].
  rewrite !string_length_app.
  change "-" with separator. rewrite repeat_string_separator_length.
  simpl. lia.
Qed.
End MsgFacts.

(** C9 fails in the code: a message of 78 bytes makes the banner 81 bytes
    before padding, [strings.Repeat] is called with the count -1 and
    panics, so no line is logged. *)
Theorem msg_panics_on_long_message :
  len (Sprintf_verbatim long_message []) = 78 ∧
  separatorSize - len ("-- " +:+ Sprintf_verbatim long_message []) = -1 ∧
  strings_Repeat separator (-1) = None ∧
  msg Sprintf_verbatim long_message [] [] = None.
Proof. by split_and!. Qed.

Example msg_short_message :
  msg Sprintf_verbatim "starting" [] []
  = Some [klog_Info
      "-- starting---------------------------------------------------------------------"].
Proof. reflexivity. Qed.

(** * Help *)

Lemma sort_Strings_Permutation (names : list string) :
  sort_Strings names ≡ₚ names.
Proof. apply merge_sort_Permutation. Qed.

Lemma sort_Strings_sorted (names : list string) :
  StronglySorted string_le (sort_Strings names).
Proof. apply StronglySorted_merge_sort; apply _. Qed.

(** [sort_Strings] stands for any sorting routine: a sorted arrangement
    of the names is this one. *)
Lemma sort_Strings_spec (names sorted : list string) :
  StronglySorted string_le sorted → sorted ≡ₚ names →
  sorted = sort_Strings names.
Proof.
  intros Hs Hp. apply (StronglySorted_unique string_le);
    [done|apply sort_Strings_sorted|].
  by rewrite sort_Strings_Permutation.
Qed.

(** The sorted list depends on the names only, not on their order. *)
Lemma sort_Strings_unique (names1 names2 : list string) :
  names1 ≡ₚ names2 → sort_Strings names1 = sort_Strings names2.
Proof.
  intros Hp. apply (StronglySorted_unique string_le);
    [apply sort_Strings_sorted..|].
  by rewrite !sort_Strings_Permutation.
Qed.

(** Sorted names without repetition increase strictly. *)
Lemma StronglySorted_le_lt (names : list string) :
  NoDup names → StronglySorted string_le names →
  StronglySorted string_lt names.
Proof.
  intros Hnd Hs. induction Hs as [|x l Hs IH Hall]; [constructor|].
  apply NoDup_cons in Hnd as [Hx Hnd]. constructor; [by apply IH|].
  rewrite Forall_forall in *. intros y Hy.
  apply string_lt_le_ne. split; [by apply Hall|]. by intros ->.
Qed.

Lemma Permutation_elem_of_Cmd (adds adds' : list Cmd) (name : string) :
  adds' ≡ₚ adds →
  (∃ cmd, cmd ∈ adds' ∧ Cmd.Name cmd = name) ↔
  (∃ cmd, cmd ∈ adds ∧ Cmd.Name cmd = name).
Proof. intros Hp. by setoid_rewrite Hp. Qed.

Section HelpFacts.
Variable tabwriter : list string → string.

(** C8: whatever the sequence of [Add] calls, [Help] writes one row for
    each registered name and no other, the names increasing strictly in
    byte order; the row of a name is that of its most recent registration:
    the name, a tab (byte 9), the syntax of that registration, a tab, " # ",
    its help text and a newline (byte 10); the list of names does not depend
    on the order of the registrations nor on the order in which the map is
    ranged over. *)
Theorem Help_lists_latest_sorted (adds : list Cmd) (order : list string)
    (term : Terminal) :
  range_keys (registered adds) order →
  ∃ names rows,
    StronglySorted string_lt names ∧
    (∀ name, name ∈ names ↔ ∃ cmd, cmd ∈ adds ∧ Cmd.Name cmd = name) ∧
    Forall2 (λ name row, ∃ cmd,
               latest adds name = Some cmd ∧
               Cmd.Name cmd = name ∧
               row = name +:+ String (Ascii.ascii_of_nat 9) ""
                     +:+ Cmd.Syntax cmd +:+ String (Ascii.ascii_of_nat 9) ""
                     +:+ " # " +:+ Cmd.Help cmd +:+ String (Ascii.ascii_of_nat 10) "")
      names rows ∧
    Help_rows order (registered adds) = Some rows ∧
    Help tabwriter order (registered adds) term
    = Some (Cyan (Escape term) +:+ tabwriter rows +:+ Reset (Escape term)) ∧
    (∀ adds' order', adds' ≡ₚ adds → range_keys (registered adds') order' →
       sort_Strings order' = names).
Proof.
  intros Hrange.
  assert (∀ name, name ∈ order ↔ ∃ cmd, cmd ∈ adds ∧ Cmd.Name cmd = name)
    as Hdom.
  { intros name. rewrite (range_keys_elem _ _ _ Hrange), registered_lookup.
    apply latest_is_Some. }
  assert (is_Some (Help_rows order (registered adds))) as [rows Hrows].
  { unfold Help_rows. apply mapM_is_Some_2, Forall_forall. intros name Hin.
    rewrite sort_Strings_Permutation in Hin.
    apply (range_keys_elem _ _ _ Hrange) in Hin as [cmd Hcmd].
    simpl. rewrite Hcmd. by eexists. }
  exists (sort_Strings order), rows. split_and!.
  - apply StronglySorted_le_lt; [|apply sort_Strings_sorted].
    rewrite sort_Strings_Permutation. by eapply range_keys_NoDup.
  - intros name. by rewrite sort_Strings_Permutation.
  - unfold Help_rows in Hrows. apply mapM_Some_1 in Hrows.
    eapply Forall2_impl; [exact Hrows|]. simpl. intros name row Hrow.
    destruct (registered adds !! name) as [cmd|] eqn:E; [|done].
    injection Hrow as <-. exists cmd.
    pose proof (registered_wf _ _ _ E) as Hname.
    rewrite <-registered_lookup. split_and!; [done..|].
    by rewrite <-Hname.
  - done.
  - unfold Help. by rewrite Hrows.
  - intros adds' order' Hp Hrange'. apply sort_Strings_unique.
    apply NoDup_Permutation; [by eapply range_keys_NoDup..|].
    intros name. rewrite Hdom, (range_keys_elem _ _ _ Hrange').
    rewrite registered_lookup, latest_is_Some.
    by apply Permutation_elem_of_Cmd.
Qed.
End HelpFacts.

(** Registering "help" a second time leaves one row for it, the later one,
    and it comes before "set-x" though that was registered first. *)
Lemma Help_lists_latest_sorted_witness :
  let adds := [cmd_set_x; cmd_help; cmd_help_again] in
  let order := (map_to_list (registered adds)).*1 in
  let TAB := String (Ascii.ascii_of_nat 9) "" in
  let NL := String (Ascii.ascii_of_nat 10) "" in
  (∃ names rows,
     StronglySorted string_lt names ∧
     Help_rows order (registered adds) = Some rows ∧
     Forall2 (λ name row, ∃ cmd,
                latest adds name = Some cmd ∧
                Cmd.Name cmd = name ∧
                row = name +:+ TAB +:+ Cmd.Syntax cmd +:+ TAB
                      +:+ " # " +:+ Cmd.Help cmd +:+ NL)
       names rows) ∧
  Help_rows order (registered adds)
  = Some ["help" +:+ TAB +:+ "[cmd]" +:+ TAB +:+ " # help on a command" +:+ NL;
          "set-x" +:+ TAB +:+ "<n>" +:+ TAB +:+ " # set x" +:+ NL].
Proof.
  split; [|by vm_compute].
  destruct (Help_lists_latest_sorted (λ rows, String.concat "" rows)
              [cmd_set_x; cmd_help; cmd_help_again]
              (map_to_list (registered [cmd_set_x; cmd_help; cmd_help_again])).*1
              (NewTerminal (script []) ""))
    as (names & rows & Hsorted & _ & Hrows & Heq & _).
  - unfold range_keys. reflexivity.
  - exists names, rows. split; [exact Hsorted|]. split; [exact Heq|exact Hrows].
Defined.

(** * Further properties of the registry *)

Lemma latest_None (adds : list Cmd) (name : string) :
  latest adds name = None ↔ ∀ cmd, cmd ∈ adds → Cmd.Name cmd ≠ name.
Proof.
  rewrite eq_None_not_Some, latest_is_Some. naive_solver.
Qed.

(** X1: After any sequence of [Add] calls, looking a name up in the registry
    gives the command most recently added under that name, and nothing
    when no command was added under it. *)
Theorem registered_lookup_latest (adds : list Cmd) (name : string) :
  registered adds !! name = latest adds name ∧
  (registered adds !! name = None ↔ ∀ cmd, cmd ∈ adds → Cmd.Name cmd ≠ name) ∧
  (∀ cmd, registered (adds ++ [cmd]) !! Cmd.Name cmd = Some cmd) ∧
  (∀ cmd, Cmd.Name cmd ≠ name →
     registered (adds ++ [cmd]) !! name = registered adds !! name).
Proof.
  split_and!.
  - apply registered_lookup.
  - rewrite registered_lookup. apply latest_None.
  - intros cmd. rewrite registered_snoc. apply lookup_insert_eq.
  - intros cmd Hne. rewrite registered_snoc. by apply lookup_insert_ne.
Qed.

Lemma registered_dom (adds : list Cmd) :
  dom (registered adds) = list_to_set (Cmd.Name <$> adds).
Proof.
  apply set_eq. intros name.
  rewrite elem_of_dom, registered_lookup, latest_is_Some.
  rewrite elem_of_list_to_set, list_elem_of_fmap. naive_solver.
Qed.

(** X2: The registry files every command under its own name, holds only
    commands that were added, and has one entry per distinct name. *)
Theorem registered_keyed_by_Name (adds : list Cmd) :
  (∀ name cmd, registered adds !! name = Some cmd →
     Cmd.Name cmd = name ∧ cmd ∈ adds) ∧
  size (registered adds) = length (remove_dups (Cmd.Name <$> adds)).
Proof.
  split.
  - intros name cmd H. rewrite registered_lookup in H.
    apply latest_Some in H. naive_solver.
  - rewrite <-size_dom, registered_dom.
    rewrite <-(size_list_to_set (C:=gset string) (remove_dups (Cmd.Name <$> adds)))
      by apply NoDup_remove_dups.
    f_equal. apply set_eq. intros name.
    by rewrite !elem_of_list_to_set, elem_of_remove_dups.
Qed.

Lemma latest_Permutation (adds adds' : list Cmd) (name : string) :
  NoDup (Cmd.Name <$> adds) → adds' ≡ₚ adds →
  latest adds' name = latest adds name.
Proof.
  intros Hnd Hp. unfold latest.
  assert (filter (λ cmd, Cmd.Name cmd = name) adds'
          ≡ₚ filter (λ cmd, Cmd.Name cmd = name) adds) as Hf by by rewrite Hp.
  assert (∀ l, NoDup (Cmd.Name <$> l) →
               (length (filter (λ cmd, Cmd.Name cmd = name) l) ≤ 1)%nat) as Hshort.
  { clear. induction l as [|c l IH]; simpl; [lia|].
    intros [Hc Hnd]%NoDup_cons. specialize (IH Hnd).
    rewrite filter_cons. case_decide as Hname; [|done]. simpl.
    destruct (filter _ l) as [|c' l'] eqn:E; [simpl; lia|].
    exfalso. apply Hc.
    assert (c' ∈ filter (λ cmd, Cmd.Name cmd = name) l) as Hin
      by (rewrite E; set_solver).
    apply list_elem_of_filter in Hin as [Hn Hin].
    rewrite Hname, <-Hn. by apply list_elem_of_fmap_2. }
  pose proof (Hshort adds Hnd) as Hlen.
  destruct (filter _ adds) as [|c [|c' l]]; simpl in Hlen; [| |lia].
  - by apply Permutation_nil_r in Hf as ->.
  - by apply Permutation_singleton_r in Hf as ->.
Qed.

(** X3: Registrations under pairwise distinct names may be made in any order:
    the registry is the same. *)
Theorem registered_Permutation (adds adds' : list Cmd) :
  NoDup (Cmd.Name <$> adds) → adds' ≡ₚ adds →
  registered adds' = registered adds.
Proof.
  intros Hnd Hp. apply map_eq. intros name.
  rewrite !registered_lookup. by apply latest_Permutation.
Qed.

Lemma registered_Permutation_witness :
  registered [cmd_set_x; cmd_help; cmd_reboot] = registered demo_adds.
Proof.
  apply registered_Permutation; [compute_done|].
  apply (Permutation_cons_append [cmd_help; cmd_reboot] cmd_set_x).
Defined.

(** * Further properties of Handle *)

Lemma Handle_range_elem (order : list Cmd) (line : string) (cmd : Cmd)
    (arg : list string) :
  Handle_range order line = Some (cmd, arg) → cmd ∈ order.
Proof.
  intros H. apply Handle_range_Some in H as (_ & _ & pre & post & -> & _).
  set_solver.
Qed.

Lemma Handle_range_Permutation (order1 order2 : list Cmd) (line : string) :
  order1 ≡ₚ order2 →
  (∀ c1 c2, c1 ∈ order1 → c2 ∈ order1 →
            matches c1 line → matches c2 line → c1 = c2) →
  Handle_range order1 line = Handle_range order2 line.
Proof.
  intros Hp Huniq.
  destruct (Handle_range order1 line) as [[c1 a1]|] eqn:E1;
    destruct (Handle_range order2 line) as [[c2 a2]|] eqn:E2; [| | |done].
  - pose proof (Handle_range_elem _ _ _ _ E1) as Hin1.
    pose proof (Handle_range_elem _ _ _ _ E2) as Hin2.
    apply Handle_range_Some in E1 as (Hm1 & -> & _).
    apply Handle_range_Some in E2 as (Hm2 & -> & _).
    rewrite <-Hp in Hin2. by rewrite (Huniq c1 c2).
  - pose proof (Handle_range_elem _ _ _ _ E1) as Hin1.
    apply Handle_range_Some in E1 as (Hm1 & _).
    rewrite Handle_range_None, Forall_forall in E2.
    rewrite Hp in Hin1. by destruct (E2 c1 Hin1).
  - pose proof (Handle_range_elem _ _ _ _ E2) as Hin2.
    apply Handle_range_Some in E2 as (Hm2 & _).
    rewrite Handle_range_None, Forall_forall in E1.
    rewrite <-Hp in Hin2. by destruct (E1 c2 Hin2).
Qed.

(** X4: When at most one registered command matches a line, what [Handle] does
    with the line does not depend on the order in which the map is ranged
    over. *)
Theorem Handle_order_independent (cmds : gmap string Cmd)
    (order1 order2 : list Cmd) (term : Terminal) (line : string) :
  range_values cmds order1 → range_values cmds order2 →
  (∀ name1 name2 cmd1 cmd2,
     cmds !! name1 = Some cmd1 → cmds !! name2 = Some cmd2 →
     matches cmd1 line → matches cmd2 line → cmd1 = cmd2) →
  Handle order1 term line = Handle order2 term line.
Proof.
  intros Hr1 Hr2 Huniq. unfold Handle.
  rewrite (Handle_range_Permutation order1 order2 line); [done| |].
  - unfold range_values in *. by rewrite Hr1, Hr2.
  - intros c1 c2 Hin1 Hin2.
    apply (range_values_elem _ _ _ Hr1) in Hin1 as [name1 H1].
    apply (range_values_elem _ _ _ Hr1) in Hin2 as [name2 H2]. eauto.
Qed.

Lemma demo_adds_one_match (line : string) (name1 name2 : string)
    (cmd1 cmd2 : Cmd) :
  registered demo_adds !! name1 = Some cmd1 →
  registered demo_adds !! name2 = Some cmd2 →
  matches cmd1 line → matches cmd2 line → cmd1 = cmd2.
Proof.
  rewrite !registered_lookup. intros [Hin1 _]%latest_Some [Hin2 _]%latest_Some.
  apply list_elem_of_In in Hin1, Hin2. simpl in Hin1, Hin2.
  destruct Hin1 as [<-|[<-|[<-|[]]]], Hin2 as [<-|[<-|[<-|[]]]];
    unfold matches; simpl; try done; try (by intros <-);
    intros H1 H2; try rewrite <-H1 in H2; try rewrite <-H2 in H1;
    by vm_compute in H1, H2; destruct H1, H2.
Qed.

Lemma Handle_order_independent_witness :
  let term := NewTerminal (script []) "" in
  Handle [cmd_set_x; cmd_reboot; cmd_help] term "set 42"
  = Handle [cmd_help; cmd_reboot; cmd_set_x] term "set 42".
Proof.
  apply (Handle_order_independent (registered demo_adds)).
  - apply range_values_registered; [compute_done|].
    apply (reverse_Permutation demo_adds).
  - apply range_values_registered; [compute_done|reflexivity].
  - apply demo_adds_one_match.
Defined.

(** X5: [Handle] reports an unknown command only when nothing matches: if some
    registered command matches the line, the handler of a registered,
    matching command is called, with the groups its pattern captured. *)
Theorem Handle_dispatches_when_some_match (cmds : gmap string Cmd)
    (order : list Cmd) (term : Terminal) (line : string) :
  range_values cmds order →
  (∃ name cmd, cmds !! name = Some cmd ∧ matches cmd line) →
  ∃ name cmd,
    cmds !! name = Some cmd ∧ matches cmd line ∧
    Handle order term line
    = Handle_return (Cmd.Fn cmd term (captures cmd line)).
Proof.
  intros Hrange (name0 & cmd0 & Hreg & Hm).
  destruct (Handle_range order line) as [[cmd arg]|] eqn:E.
  - pose proof (Handle_range_elem _ _ _ _ E) as Hin.
    apply (range_values_elem _ _ _ Hrange) in Hin as [name Hname].
    pose proof (Handle_selected _ term _ _ _ E) as Hcall.
    apply Handle_range_Some in E as (Hmc & -> & _). by exists name, cmd.
  - rewrite Handle_range_None, Forall_forall in E.
    destruct (E cmd0); [|done].
    apply (range_values_elem _ _ _ Hrange). by exists name0.
Qed.

Lemma Handle_dispatches_when_some_match_witness :
  let term := NewTerminal (script []) "" in
  ∃ name cmd,
    registered [cmd_set_x; cmd_set_y] !! name = Some cmd ∧
    matches cmd "set 42" ∧
    Handle [cmd_set_y; cmd_set_x] term "set 42"
    = Handle_return (Cmd.Fn cmd term (captures cmd "set 42")).
Proof.
  apply Handle_dispatches_when_some_match.
  - apply range_values_registered; [compute_done|].
    apply (Permutation_swap cmd_set_x cmd_set_y []).
  - exists "set-x", cmd_set_x. split; [reflexivity|]. by vm_compute.
Defined.

(** X6: The handler of a selected command with a pattern is called with
    exactly [Args] arguments, that of a command without pattern with none;
    so a command with a pattern and a negative [Args] is never selected. *)
Theorem Handle_passes_Args_arguments (order : list Cmd) (line : string)
    (cmd : Cmd) (arg : list string) :
  Handle_range order line = Some (cmd, arg) →
  match Cmd.Pattern cmd with
  | Some _ => Z.of_nat (length arg) = Cmd.Args cmd ∧ 0 <= Cmd.Args cmd
  | None => arg = []
  end.
Proof.
  intros H. apply Handle_range_Some in H as (Hm & -> & _).
  unfold matches, captures in *.
  destruct (Cmd.Pattern cmd) as [re|]; [|done]. simpl in Hm. lia.
Qed.

Lemma Handle_passes_Args_arguments_witness :
  Z.of_nat (length ["42"]) = Cmd.Args cmd_set_x ∧ 0 <= Cmd.Args cmd_set_x.
Proof.
  exact (Handle_passes_Args_arguments [cmd_help; cmd_set_x] "set 42"
           cmd_set_x ["42"] eq_refl).
Defined.

(** * Further properties of Console *)

(** X7: A line that no registered command matches never ends the console: the
    turn logs the unknown-command error and the loop goes on, the terminal
    moved on by the one read and nothing written. *)
Theorem Console_survives_unknown_command (cmds : gmap string Cmd)
    (order : list Cmd) (term : Terminal) (log : list log_entry) (line : string) :
  range_values cmds order →
  (ReadLine term).2 = (line, None) →
  (∀ name cmd, cmds !! name = Some cmd → ¬ matches cmd line) →
  Console_iter order term log
  = Running (ReadLine term).1
      (log ++ [klog_Error "command error: unknown command, type `help`"]).
Proof.
  intros Hrange Hread Hnone.
  apply (Console_iter_command_error _ _ _ _ line (errors_New unknown_command));
    [done| |done].
  unfold Handle.
  assert (Handle_range order line = None) as ->; [|done].
  apply Handle_range_None, Forall_forall. intros cmd Hin.
  apply (range_values_elem _ _ _ Hrange) in Hin as [name Hin]. eauto.
Qed.

Lemma Console_survives_unknown_command_witness :
  let term := NewTerminal (script [("set", None)]) "" in
  Console_iter demo_adds term []
  = Running (ReadLine term).1
      [klog_Error "command error: unknown command, type `help`"].
Proof.
  intros term.
  refine (Console_survives_unknown_command (registered demo_adds) demo_adds
            term [] "set" _ eq_refl demo_adds_no_match_set).
  apply range_values_registered; [compute_done|reflexivity].
Defined.

Lemma Console_iter_log (order : list Cmd) (term : Terminal)
    (log : list log_entry) :
  ∃ added,
    loop_log (Console_iter order term log) = log ++ added ∧
    Forall is_klog_Error added ∧ (length added ≤ 1)%nat.
Proof.
  assert (∀ l : list log_entry, ∃ added, l = l ++ added ∧
            Forall is_klog_Error added ∧ (length added ≤ 1)%nat) as Hsame.
  { intros l. exists []. rewrite app_nil_r. split_and!; [done|constructor|simpl; lia]. }
  assert (∀ (l : list log_entry) text, ∃ added,
            l ++ [klog_Error text] = l ++ added ∧
            Forall is_klog_Error added ∧ (length added ≤ 1)%nat) as Hone.
  { intros l text. exists [klog_Error text].
    split_and!; [done|by repeat constructor|simpl; lia]. }
  unfold Console_iter. destruct (ReadLine term) as [term1 [s [e|]]].
  - destruct (decide (e = io_EOF)); simpl; auto.
  - destruct (Handle order term1 s) as [term2 [e|]]; simpl; [|auto].
    destruct (decide (e = io_EOF)); simpl; auto.
Qed.

(** X8: The console only ever appends to the log, only error entries, and at
    most one for each turn of the loop. *)
Theorem Console_log_grows_by_errors (n : nat) (orders : nat → list Cmd)
    (term : Terminal) (log : list log_entry) :
  ∃ added,
    loop_log (Console_turns n orders (Running term log)) = log ++ added ∧
    Forall is_klog_Error added ∧ (length added ≤ n)%nat.
Proof.
  induction n as [|n (added & Hlog & Herr & Hlen)].
  - exists []. simpl. rewrite app_nil_r. split_and!; [done|constructor|done].
  - rewrite Console_turns_succ.
    destruct (Console_turns n orders (Running term log)) as [t l|t l];
      simpl in Hlog; subst l.
    + destruct (Console_iter_log (orders n) t (log ++ added))
        as (added' & -> & Herr' & Hlen').
      exists (added ++ added'). rewrite app_assoc. split; [done|].
      split; [by apply Forall_app|]. rewrite length_app. lia.
    + exists added. simpl. auto with lia.
Qed.

Lemma Handle_consumes (order : list Cmd) (term : Terminal) (line : string) :
  (∀ cmd, cmd ∈ order → consumes_input (Cmd.Fn cmd)) →
  input (Handle order term line).1 = input term ∧
  (cursor term ≤ cursor (Handle order term line).1)%nat.
Proof.
  intros Hfn. unfold Handle.
  destruct (Handle_range order line) as [[cmd arg]|] eqn:E; [|done].
  apply Handle_range_elem in E. destruct (Hfn cmd E term arg) as [Hin Hcur].
  unfold Handle_return.
  by destruct (Cmd.Fn cmd term arg) as [term1 [res [e|]]].
Qed.

Lemma Console_iter_consumes (lines : list (string * option error))
    (order : list Cmd) (term : Terminal) (log : list log_entry) :
  input term = script lines →
  (∀ cmd, cmd ∈ order → consumes_input (Cmd.Fn cmd)) →
  match Console_iter order term log with
  | Terminated _ _ => True
  | Running term' _ =>
      input term' = script lines ∧
      (cursor term < cursor term')%nat ∧ (cursor term < length lines)%nat
  end.
Proof.
  intros Hin Hfn. unfold Console_iter, ReadLine.
  assert ((length lines ≤ cursor term)%nat →
          input term (cursor term) = ("", Some io_EOF)) as Hclosed.
  { intros Hle. rewrite Hin. unfold script. by apply nth_overflow. }
  destruct (input term (cursor term)) as [s [e|]] eqn:Hread.
  - destruct (decide (e = io_EOF)) as [->|Hne]; [done|]. simpl.
    split_and!; [done|lia|].
    destruct (decide (cursor term < length lines)%nat); [done|].
    assert (length lines ≤ cursor term)%nat as Hle by lia.
    specialize (Hclosed Hle). congruence.
  - match goal with |- context [Handle order ?t s] =>
      pose proof (Handle_consumes order t s Hfn) as [Hin' Hcur];
      destruct (Handle order t s) as [term2 err]
    end.
    simpl in Hin', Hcur.
    assert (cursor term < length lines)%nat.
    { destruct (decide (cursor term < length lines)%nat); [done|].
      assert (length lines ≤ cursor term)%nat as Hle by lia.
      specialize (Hclosed Hle). congruence. }
    destruct err as [e|]; [destruct (decide (e = io_EOF))|];
      try done; split_and!; try done; try congruence; lia.
Qed.

Lemma Console_loop_finite (lines : list (string * option error)) (d : nat) :
  ∀ (orders : nat → list Cmd) (term : Terminal) (log : list log_entry),
    input term = script lines →
    (∀ k cmd, cmd ∈ orders k → consumes_input (Cmd.Fn cmd)) →
    (length lines - cursor term ≤ d)%nat →
    ∃ fuel, (fuel ≤ S d)%nat ∧ is_Some (Console_loop fuel orders term log).
Proof.
  induction d as [|d IH]; intros orders term log Hin Hfn Hd;
    pose proof (Console_iter_consumes lines (orders O) term log Hin (Hfn O))
      as Hstep;
    destruct (Console_iter (orders O) term log) as [t l|t l] eqn:E.
  - lia.
  - exists 1%nat. split; [lia|]. unfold Console_loop. simpl. rewrite E. by eexists.
  - destruct Hstep as (Hin' & Hcur & Hlt).
    destruct (IH (λ k, orders (S k)) t l Hin') as (fuel & Hfuel & Hsome).
    { intros k cmd. apply Hfn. }
    { lia. }
    exists (S fuel). split; [lia|].
    unfold Console_loop in *. simpl. by rewrite E.
  - exists 1%nat. split; [lia|]. unfold Console_loop. simpl. rewrite E. by eexists.
Qed.

(** X9: On a stream that closes after finitely many reads the loop of the
    console is left, within one turn per read still to be done plus one,
    provided the handlers do no more to the stream than read from it. *)
Theorem Console_terminates_on_finite_input (orders : nat → list Cmd)
    (lines : list (string * option error)) (term : Terminal)
    (log : list log_entry) :
  input term = script lines →
  (∀ k cmd, cmd ∈ orders k → consumes_input (Cmd.Fn cmd)) →
  ∃ fuel,
    (fuel ≤ S (length lines - cursor term))%nat ∧
    is_Some (Console_loop fuel orders term log).
Proof. intros Hin Hfn. by apply (Console_loop_finite lines). Qed.

Lemma consumes_input_reboot : consumes_input (Cmd.Fn cmd_reboot).
Proof.
  intros term arg. simpl. unfold confirm, ReadLine. simpl.
  destruct (input term (cursor term)) as [line [e|]]; simpl; [auto with lia|].
  destruct (String.eqb line "y"); simpl; auto with lia.
Qed.

Lemma Console_terminates_on_finite_input_witness :
  let term := NewTerminal (script [("reboot", None); ("n", None); ("help", None)]) "" in
  ∃ fuel, (fuel ≤ 4)%nat ∧
          is_Some (Console_loop fuel (λ _, [cmd_help; cmd_reboot]) term []).
Proof.
  intros term.
  refine (Console_terminates_on_finite_input (λ _, [cmd_help; cmd_reboot])
            [("reboot", None); ("n", None); ("help", None)] term [] eq_refl _).
  intros _ cmd Hin. apply list_elem_of_In in Hin. simpl in Hin.
  destruct Hin as [<-|[<-|[]]].
  - intros t arg. simpl. auto with lia.
  - exact consumes_input_reboot.
Defined.

Lemma Console_iter_prompt (order : list Cmd) (term : Terminal)
    (log : list log_entry) :
  (∀ cmd, cmd ∈ order → keeps_prompt (Cmd.Fn cmd)) →
  prompt (loop_term (Console_iter order term log)) = prompt term.
Proof.
  intros Hfn. unfold Console_iter, ReadLine.
  destruct (input term (cursor term)) as [s [e|]].
  - by destruct (decide (e = io_EOF)).
  - match goal with |- context [Handle order ?t s] =>
      assert (prompt (Handle order t s).1 = prompt term) as Hp;
      [|destruct (Handle order t s) as [term2 [e|]];
        [destruct (decide (e = io_EOF))|]; done]
    end.
    unfold Handle.
    destruct (Handle_range order s) as [[cmd arg]|] eqn:E; [|done].
    apply Handle_range_elem in E.
    match goal with |- context [Cmd.Fn cmd ?t arg] =>
      pose proof (Hfn cmd E t arg) as Hkeep;
      destruct (Cmd.Fn cmd t arg) as [term1 [res [e|]]]
    end; done.
Qed.

(** X10: Neither the loop of the console nor [Handle] sets the prompt: as long
    as the handlers return with the prompt they were called with, the
    prompt after any number of turns is the one the console was started
    with. *)
Theorem Console_keeps_prompt (n : nat) (orders : nat → list Cmd)
    (term : Terminal) (log : list log_entry) :
  (∀ k cmd, cmd ∈ orders k → keeps_prompt (Cmd.Fn cmd)) →
  prompt (loop_term (Console_turns n orders (Running term log))) = prompt term.
Proof.
  intros Hfn. induction n as [|n IH]; [done|].
  rewrite Console_turns_succ.
  destruct (Console_turns n orders (Running term log)) as [t l|t l];
    simpl in IH; [|done].
  rewrite <-IH. apply Console_iter_prompt, Hfn.
Qed.

Lemma Console_keeps_prompt_witness :
  let term := NewTerminal (script [("status", None); ("set 7", None)]) "$ " in
  prompt (loop_term (Console_turns 3 (λ _, [cmd_status; cmd_set_x])
                       (Running term []))) = "$ ".
Proof.
  intros term.
  refine (Console_keeps_prompt 3 (λ _, [cmd_status; cmd_set_x]) term [] _).
  intros _ cmd Hin. apply list_elem_of_In in Hin. simpl in Hin.
  destruct Hin as [<-|[<-|[]]]; intros t arg; reflexivity.
Defined.

(** * Further properties of Help *)

Lemma Help_rows_is_Some (cmds : gmap string Cmd) (order : list string) :
  range_keys cmds order →
  ∃ rows, Help_rows order cmds = Some rows ∧ length rows = size cmds.
Proof.
  intros Hrange.
  assert (is_Some (Help_rows order cmds)) as [rows Hrows].
  { unfold Help_rows. apply mapM_is_Some_2, Forall_forall. intros name Hin.
    rewrite sort_Strings_Permutation in Hin.
    apply (range_keys_elem _ _ _ Hrange) in Hin as [cmd Hcmd].
    simpl. rewrite Hcmd. by eexists. }
  exists rows. split; [done|].
  unfold Help_rows in Hrows. apply mapM_Some_1, Forall2_length in Hrows.
  rewrite <-Hrows, sort_Strings_Permutation, Hrange, length_fmap.
  apply length_map_to_list.
Qed.

(** The console prompt is an invariant of the loop when the handlers keep
    to it. *)
Lemma Console_turns_console_prompt (n : nat) (orders : nat → list Cmd)
    (term : Terminal) (log : list log_entry) :
  (∀ k cmd, cmd ∈ orders k → keeps_console_prompt (Cmd.Fn cmd)) →
  prompt term = console_prompt term →
  prompt (loop_term (Console_turns n orders (Running term log)))
  = console_prompt (loop_term (Console_turns n orders (Running term log))).
Proof.
  intros Hfn Hstart. induction n as [|n IH]; [done|].
  rewrite Console_turns_succ.
  destruct (Console_turns n orders (Running term log)) as [t l|t l];
    [|done].
  simpl in IH. unfold Console_iter, ReadLine.
  destruct (input t (cursor t)) as [s [e|]].
  - by destruct (decide (e = io_EOF)).
  - match goal with |- context [Handle (orders n) ?t1 s] =>
      assert (prompt (Handle (orders n) t1 s).1
              = console_prompt (Handle (orders n) t1 s).1) as Hp;
      [|destruct (Handle (orders n) t1 s) as [term2 [e|]];
        [destruct (decide (e = io_EOF))|]; done]
    end.
    unfold Handle.
    destruct (Handle_range (orders n) s) as [[cmd arg]|] eqn:E; [|done].
    apply Handle_range_elem in E.
    match goal with |- context [Cmd.Fn cmd ?t1 arg] =>
      pose proof (Hfn n cmd E t1 arg IH) as Hkeep;
      destruct (Cmd.Fn cmd t1 arg) as [term1 [res [e|]]]
    end; done.
Qed.

Section HelpMore.
Variable tabwriter : list string → string.

(** X11: [Help] does not depend on the order in which the map is ranged over:
    two calls on the same registry return the same text. *)
Theorem Help_order_independent (cmds : gmap string Cmd)
    (order1 order2 : list string) (term : Terminal) :
  range_keys cmds order1 → range_keys cmds order2 →
  Help tabwriter order1 cmds term = Help tabwriter order2 cmds term.
Proof.
  unfold range_keys, Help, Help_rows. intros H1 H2.
  rewrite (sort_Strings_unique order1 order2); [done|]. by rewrite H1, H2.
Qed.

(** X12: [Help] never meets a missing entry, whatever the registry: it returns
    its text, built from as many rows as there are registered commands
    (none for the empty registry); so the console gets past its banner. *)
Theorem Help_never_panics (cmds : gmap string Cmd) (order : list string)
    (term : Terminal) (Banner : string) :
  range_keys cmds order →
  ∃ rows,
    length rows = size cmds ∧
    Help tabwriter order cmds term
    = Some (Cyan (Escape term) +:+ tabwriter rows +:+ Reset (Escape term)) ∧
    is_Some (Console_banner tabwriter Banner order cmds term).
Proof.
  intros Hrange.
  destruct (Help_rows_is_Some cmds order Hrange) as (rows & Hrows & Hlen).
  exists rows. split; [done|].
  unfold Console_banner, Help. rewrite Hrows. simpl. split; [done|by eexists].
Qed.

(** X13: The session [SerialConsole] sets up runs under the console prompt
    throughout, when the handlers keep to it as [confirm] does: the loop is
    entered with the prompt ESC[31m> ESC[0m in effect; at every turn of the
    loop the prompt in effect is the console prompt, red "> " and reset, so
    that is the prompt under which the loop reads each line; and it is the
    prompt in effect when the session ends. *)
Theorem SerialConsole_keeps_console_prompt (Banner : string)
    (cmds : gmap string Cmd) (help_order : list string)
    (orders : nat → list Cmd) (console : nat → string * option error)
    (log : list log_entry) :
  (∀ k cmd, cmd ∈ orders k → keeps_console_prompt (Cmd.Fn cmd)) →
  (∀ fuel term' log',
     SerialConsole tabwriter Banner cmds help_order orders fuel console log
     = Some (term', log') →
     prompt term' = Red (Escape term') +:+ "> " +:+ Reset (Escape term')) ∧
  (range_keys cmds help_order →
   ∃ term0,
     (∀ fuel,
        SerialConsole tabwriter Banner cmds help_order orders fuel console log
        = Console_loop fuel orders term0 log) ∧
     prompt term0
     = String (Ascii.ascii_of_nat 27) "[31m> "
       +:+ String (Ascii.ascii_of_nat 27) "[0m" ∧
     (∀ k term1 log1,
        Console_turns k orders (Running term0 log) = Running term1 log1 →
        prompt term1 = Red (Escape term1) +:+ "> " +:+ Reset (Escape term1) ∧
        shown (ReadLine term1).1
        = shown term1
          ++ [Prompted (Red (Escape term1) +:+ "> " +:+ Reset (Escape term1))])).
Proof.
  intros Hfn. split.
  - intros fuel term' log'.
    unfold SerialConsole, Console, Console_banner, Console_loop.
    destruct (Help _ _ _ _) as [help|]; simpl; [|done].
    match goal with |- context [Console_turns fuel orders (Running ?t log)] =>
      pose proof (Console_turns_console_prompt fuel orders t log Hfn eq_refl)
        as Hinv;
      destruct (Console_turns fuel orders (Running t log)) as [t1 l1|t1 l1]
    end; [done|].
    by intros [= <- <-].
  - intros Hrange.
    destruct (Help_rows_is_Some cmds help_order Hrange) as (rows & Hrows & _).
    unfold SerialConsole, Console, Console_banner, Help. rewrite Hrows. simpl.
    eexists. split_and!; [done..|].
    intros k term1 log1 Hk.
    match type of Hk with Console_turns k orders (Running ?t log) = _ =>
      pose proof (Console_turns_console_prompt k orders t log Hfn eq_refl)
        as Hinv
    end.
    rewrite Hk in Hinv. simpl in Hinv. unfold console_prompt in Hinv.
    split; [done|]. unfold ReadLine. simpl. by rewrite Hinv.
Qed.
End HelpMore.

Lemma Help_order_independent_witness :
  let term := NewTerminal (script []) "" in
  Help (String.concat "") ["set-x"; "reboot"; "help"] (registered demo_adds) term
  = Help (String.concat "") ["help"; "reboot"; "set-x"] (registered demo_adds) term.
Proof.
  apply Help_order_independent.
  - apply range_keys_registered; [compute_done|].
    exact (reverse_Permutation ["help"; "reboot"; "set-x"]).
  - apply range_keys_registered; [compute_done|reflexivity].
Defined.

Lemma Help_never_panics_witness :
  let term := NewTerminal (script []) "" in
  ∃ rows,
    length rows = size (registered demo_adds) ∧
    Help (String.concat "") ["help"; "reboot"; "set-x"] (registered demo_adds) term
    = Some (Cyan (Escape term) +:+ String.concat "" rows +:+ Reset (Escape term)) ∧
    is_Some (Console_banner (String.concat "") "applet" ["help"; "reboot"; "set-x"]
               (registered demo_adds) term).
Proof.
  apply Help_never_panics.
  apply range_keys_registered; [compute_done|reflexivity].
Defined.

Lemma keeps_console_prompt_reboot : keeps_console_prompt (Cmd.Fn cmd_reboot).
Proof.
  intros term arg _. simpl. unfold confirm, ReadLine. simpl.
  destruct (input term (cursor term)) as [line [e|]]; simpl; [done|].
  by destruct (String.eqb line "y").
Qed.

(** A session with one command that asks for confirmation: the loop reads
    under the red prompt, the handler under the prompt of [confirm], the
    loop again under the red prompt. *)
Lemma SerialConsole_keeps_console_prompt_witness :
  let red := String (Ascii.ascii_of_nat 27) "[31m> "
             +:+ String (Ascii.ascii_of_nat 27) "[0m" in
  let session fuel :=
    SerialConsole (String.concat "") "applet" (registered [cmd_reboot])
      ["reboot"] (λ _, [cmd_reboot]) fuel
      (script [("reboot", None); ("n", None)]) [] in
  (∃ term0,
     (∀ fuel, session fuel = Console_loop fuel (λ _, [cmd_reboot]) term0 []) ∧
     prompt term0 = red ∧
     (∀ k term1 log1,
        Console_turns k (λ _, [cmd_reboot]) (Running term0 []) = Running term1 log1 →
        prompt term1 = Red (Escape term1) +:+ "> " +:+ Reset (Escape term1) ∧
        shown (ReadLine term1).1
        = shown term1
          ++ [Prompted (Red (Escape term1) +:+ "> " +:+ Reset (Escape term1))])) ∧
  (λ r, (prompt r.1, drop 2 (shown r.1))) <$> session 3%nat
  = Some (red, [Prompted red; Prompted "Are you sure? (y/n) "; Prompted red]).
Proof.
  split; [|reflexivity].
  refine (proj2 (SerialConsole_keeps_console_prompt (String.concat "") "applet"
                   (registered [cmd_reboot]) ["reboot"] (λ _, [cmd_reboot])
                   (script [("reboot", None); ("n", None)]) [] _) _).
  - intros _ cmd Hin. apply list_elem_of_In in Hin. simpl in Hin.
    destruct Hin as [<-|[]]. exact keeps_console_prompt_reboot.
  - apply range_keys_registered; [compute_done|reflexivity].
Defined.

(** * Further properties of msg *)

(** X14: For a message of up to 77 bytes [msg] logs one informational line of
    exactly 80 bytes: "-- ", the message, and dashes for the rest, none when
    the message has 77 bytes; longer messages are the only ones it panics
    on. *)
Theorem msg_logs_banner {Arg : Type} (Sprintf : string → list Arg → string)
    (format : string) (args : list Arg) (log : list log_entry) :
  len (Sprintf format args) <= 77 →
  let message := Sprintf format args in
  let banner :=
    "-- " +:+ message +:+ repeat_string "-" (Z.to_nat (77 - len message)) in
  msg Sprintf format args log = Some (log ++ [klog_Info banner]) ∧
  len banner = 80 ∧
  (∀ format' args', msg Sprintf format' args' log = None ↔
                    len (Sprintf format' args') > 77).
Proof.
  intros Hlen message banner. split_and!.
  - assert (separatorSize - len ("-- " +:+ message) = 77 - len message) as Hpad.
    { unfold separatorSize, len. rewrite string_length_app.
      change (String.length "-- ") with 3%nat. lia. }
    unfold msg. change (strings_Repeat separator 2) with (Some "--").
    cbn [mbind option_bind].
    change (("--" +:+ " ") +:+ Sprintf format args) with ("-- " +:+ message).
    rewrite Hpad. unfold strings_Repeat.
    rewrite bool_decide_false by (unfold message; lia). done.
  - subst banner message. unfold len in *. rewrite !string_length_app.
    change "-" with separator. rewrite repeat_string_separator_length.
    change (String.length "-- ") with 3%nat. lia.
  - intros format' args'. apply msg_panics_iff.
Qed.

Lemma msg_logs_banner_witness :
  msg Sprintf_verbatim "" [] []
  = Some [klog_Info ("-- " +:+ repeat_string "-" 77)] ∧
  len ("-- " +:+ repeat_string "-" 77) = 80.
Proof.
  destruct (msg_logs_banner Sprintf_verbatim "" [] []) as (Hmsg & Hlen & _).
  - unfold Sprintf_verbatim, len. simpl. lia.
  - split; [exact Hmsg|exact Hlen].
Defined.
